(** * MediaPermissionTester: the handlers of [src/app/page.js]

    The component keeps React state (camera, torch, microphone, log) and
    five refs, and talks to the browser through [getUserMedia],
    [track.stop], [track.getCapabilities] and [track.applyConstraints].

    Modelling conventions.
    - One record [State] holds the React state variables and the [current]
      field of every ref, under the names of the source.  Two further
      fields belong to the host: [hostCalls], the media calls issued so far,
      and [clock], the number of times [new Date()] was read.
    - A handler is a computation in a state-and-exception monad [M]; a
      [try { } catch (error) { }] block is [try_catch].  A promise that
      rejects under [await] is an exception thrown at the [await].
    - A handler runs from the state that was rendered when it was invoked
      and is not interleaved with another handler.  Every setter of the
      source is called with a value (only [setLogs] with an updater), and no
      handler reads a state variable after setting it, so writing the value
      at once gives the state React renders when the handler is done.
    - The answers of the host are inputs: the settlement of the promise a
      handler awaits is an argument of the handler, and what a track does
      when one of its methods is called is a field of the track.
    - [console.log] only prints and is left out.  The cleanup of the unmount
      effect (page.js 202-221) ends the component and is not a transition. *)

From Stdlib Require Import String List Bool Arith Lia.
Import ListNotations.
Open Scope string_scope.

(** ** Host values *)

(** A thrown value, with the two properties the handlers read.  An absent
    property is the empty string: [error.message || error.name] treats both
    alike. *)
Record JsError := mkError { err_message : string; err_name : string }.

(** [error.message || error.name] *)
Definition reason (error : JsError) : string :=
  if String.eqb (err_message error) "" then err_name error
  else err_message error.

(** The result of [track.getCapabilities()]; [torch = None] is a capability
    set without the [torch] key. *)
Record Capabilities := mkCapabilities { torch : option bool }.

(** A [MediaStreamTrack].  [track_stop] is what [track.stop()] does: [None]
    returns, [Some e] throws [e].  [track_getCapabilities] is [None] when the
    track has no such method, otherwise what the method returns ([Some None]
    for a nullish result). *)
Record Track := mkTrack {
  label : string;
  track_stop : option JsError;
  track_getCapabilities : option (option Capabilities)
}.

Record MediaStream := mkStream {
  getVideoTracks : list Track;
  getAudioTracks : list Track
}.

(** The [<video>] element behind [videoRef]. *)
Record VideoElement := mkVideo { srcObject : option MediaStream }.

(** [{ video: { facingMode: 'environment' } }] and [{ audio: true }] *)
Inductive Constraints := VideoEnvironment | AudioTrue.

(** How an awaited promise settles. *)
Inductive Settled (A : Type) :=
| Resolved (a : A)
| Rejected (e : JsError).
Arguments Resolved {A} a.
Arguments Rejected {A} e.

Inductive HostCall :=
| GetUserMedia (c : Constraints)
| TrackStop (t : Track)
| GetCapabilities (t : Track)
| ApplyConstraints (t : Track) (torchSetting : bool).

(** ** The log *)

Inductive LogType := Info | Success | Error.

Record LogEntry := mkLog { message : string; type : LogType }.

Definition isError (e : LogEntry) : bool :=
  match type e with Error => true | _ => false end.

(** ** Component state *)

Record State := mkState {
  cameraActive : bool;
  cameraError : option string;
  torchEnabled : bool;
  torchSupported : bool;
  videoRef : option VideoElement;
  streamRef : option MediaStream;
  trackRef : option Track;
  micActive : bool;
  micError : option string;
  micRecording : bool;
  micStreamRef : option MediaStream;
  micTrackRef : option Track;
  logs : list LogEntry;
  hostCalls : list HostCall;
  clock : nat
}.

(** The state of the first render, once the [<video>] element is mounted. *)
Definition initial : State :=
  mkState false None false false (Some (mkVideo None)) None None
          false None false None None [] [] 0.

(** Field updates.  Each one rebuilds the record with one field replaced. *)

Definition with_cameraActive (v : bool) (s : State) : State :=
  let 'mkState _ ce te ts vr sr tr ma me mr ms mt lg hc ck := s in
  mkState v ce te ts vr sr tr ma me mr ms mt lg hc ck.

Definition with_cameraError (v : option string) (s : State) : State :=
  let 'mkState ca _ te ts vr sr tr ma me mr ms mt lg hc ck := s in
  mkState ca v te ts vr sr tr ma me mr ms mt lg hc ck.

Definition with_torchEnabled (v : bool) (s : State) : State :=
  let 'mkState ca ce _ ts vr sr tr ma me mr ms mt lg hc ck := s in
  mkState ca ce v ts vr sr tr ma me mr ms mt lg hc ck.

Definition with_torchSupported (v : bool) (s : State) : State :=
  let 'mkState ca ce te _ vr sr tr ma me mr ms mt lg hc ck := s in
  mkState ca ce te v vr sr tr ma me mr ms mt lg hc ck.

Definition with_videoRef (v : option VideoElement) (s : State) : State :=
  let 'mkState ca ce te ts _ sr tr ma me mr ms mt lg hc ck := s in
  mkState ca ce te ts v sr tr ma me mr ms mt lg hc ck.

Definition with_streamRef (v : option MediaStream) (s : State) : State :=
  let 'mkState ca ce te ts vr _ tr ma me mr ms mt lg hc ck := s in
  mkState ca ce te ts vr v tr ma me mr ms mt lg hc ck.

Definition with_trackRef (v : option Track) (s : State) : State :=
  let 'mkState ca ce te ts vr sr _ ma me mr ms mt lg hc ck := s in
  mkState ca ce te ts vr sr v ma me mr ms mt lg hc ck.

Definition with_micActive (v : bool) (s : State) : State :=
  let 'mkState ca ce te ts vr sr tr _ me mr ms mt lg hc ck := s in
  mkState ca ce te ts vr sr tr v me mr ms mt lg hc ck.

Definition with_micError (v : option string) (s : State) : State :=
  let 'mkState ca ce te ts vr sr tr ma _ mr ms mt lg hc ck := s in
  mkState ca ce te ts vr sr tr ma v mr ms mt lg hc ck.

Definition with_micRecording (v : bool) (s : State) : State :=
  let 'mkState ca ce te ts vr sr tr ma me _ ms mt lg hc ck := s in
  mkState ca ce te ts vr sr tr ma me v ms mt lg hc ck.

Definition with_micStreamRef (v : option MediaStream) (s : State) : State :=
  let 'mkState ca ce te ts vr sr tr ma me mr _ mt lg hc ck := s in
  mkState ca ce te ts vr sr tr ma me mr v mt lg hc ck.

Definition with_micTrackRef (v : option Track) (s : State) : State :=
  let 'mkState ca ce te ts vr sr tr ma me mr ms _ lg hc ck := s in
  mkState ca ce te ts vr sr tr ma me mr ms v lg hc ck.

Definition with_logs (v : list LogEntry) (s : State) : State :=
  let 'mkState ca ce te ts vr sr tr ma me mr ms mt _ hc ck := s in
  mkState ca ce te ts vr sr tr ma me mr ms mt v hc ck.

Definition with_hostCalls (v : list HostCall) (s : State) : State :=
  let 'mkState ca ce te ts vr sr tr ma me mr ms mt lg _ ck := s in
  mkState ca ce te ts vr sr tr ma me mr ms mt lg v ck.

Definition with_clock (v : nat) (s : State) : State :=
  let 'mkState ca ce te ts vr sr tr ma me mr ms mt lg hc _ := s in
  mkState ca ce te ts vr sr tr ma me mr ms mt lg hc v.

(** ** The handler monad: state and exceptions *)

Inductive Outcome (A : Type) :=
| Returned (a : A) (s : State)
| Thrown (e : JsError) (s : State).
Arguments Returned {A} a s.
Arguments Thrown {A} e s.

Definition M (A : Type) : Type := State -> Outcome A.

Definition ret {A} (a : A) : M A := fun s => Returned a s.

Definition bind {A B} (c : M A) (k : A -> M B) : M B := fun s =>
  match c s with
  | Returned a s' => k a s'
  | Thrown e s' => Thrown e s'
  end.

Definition throw {A} (e : JsError) : M A := fun s => Thrown e s.

(** [try { body } catch (error) { handler }] *)
Definition try_catch {A} (body : M A) (handler : JsError -> M A) : M A :=
  fun s =>
    match body s with
    | Returned a s' => Returned a s'
    | Thrown e s' => handler e s'
    end.

Definition get : M State := fun s => Returned s s.
Definition modify (f : State -> State) : M unit := fun s => Returned tt (f s).

Declare Scope handler_scope.
Delimit Scope handler_scope with handler.
Notation "x <- c ;; k" := (bind c (fun x => k))
  (at level 61, c at next level, right associativity) : handler_scope.
Notation "c ;; k" := (bind c (fun _ => k))
  (at level 61, right associativity) : handler_scope.
Open Scope handler_scope.

(** The state a handler leaves behind, however it ended. *)
Definition final {A} (o : Outcome A) : State :=
  match o with Returned _ s => s | Thrown _ s => s end.

Definition returns {A} (o : Outcome A) : bool :=
  match o with Returned _ _ => true | Thrown _ _ => false end.

(** [Array.prototype.forEach] *)
Fixpoint forEach (tracks : list Track) (f : Track -> M unit) : M unit :=
  match tracks with
  | [] => ret tt
  | track :: rest => f track ;; forEach rest f
  end.

(** ** Sample host values, for the concrete runs further down *)

Definition noon (n : nat) : string := "12:00:00".

Definition denied : JsError := mkError "Permission denied" "NotAllowedError".

Definition torchTrack : Track :=
  mkTrack "camera 0, facing back" None
    (Some (Some (mkCapabilities (Some false)))).

Definition plainTrack : Track :=
  mkTrack "camera 1, facing back" None (Some (Some (mkCapabilities None))).

(** A track whose [stop()] throws. *)
Definition faultyTrack : Track :=
  mkTrack "camera 2, facing back"
    (Some (mkError "The track could not be stopped" "InvalidStateError"))
    (Some (Some (mkCapabilities None))).

Definition micTrack : Track := mkTrack "Default microphone" None None.

Definition torchStream : MediaStream := mkStream [torchTrack] [].
Definition plainStream : MediaStream := mkStream [plainTrack] [].
Definition faultyStream : MediaStream := mkStream [faultyTrack] [].
Definition micStream : MediaStream := mkStream [] [micTrack].

(** A granted stream that carries no track at all. *)
Definition silentStream : MediaStream := mkStream [] [].

Section Handlers.

(** The clock of the host: [toLocaleTimeString n] is the string that
    [new Date().toLocaleTimeString()] gives at the [n]-th reading. *)
Variable toLocaleTimeString : nat -> string.

(** ** Host calls *)

Definition hostCall (c : HostCall) : M unit :=
  modify (fun s => with_hostCalls (hostCalls s ++ [c])%list s).

(** [await navigator.mediaDevices.getUserMedia(constraints)] *)
Definition getUserMedia (constraints : Constraints)
    (host : Settled MediaStream) : M MediaStream :=
  hostCall (GetUserMedia constraints) ;;
  match host with
  | Resolved stream => ret stream
  | Rejected e => throw e
  end.

(** [track.stop()] *)
Definition stop (track : Track) : M unit :=
  hostCall (TrackStop track) ;;
  match track_stop track with
  | None => ret tt
  | Some e => throw e
  end.

(** [track.getCapabilities()], for a track that has the method. *)
Definition getCapabilities (track : Track)
    (result : option Capabilities) : M (option Capabilities) :=
  hostCall (GetCapabilities track) ;;
  ret result.

(** [await track.applyConstraints({ advanced: [{ torch }] })] *)
Definition applyConstraints (track : Track) (torchSetting : bool)
    (host : Settled unit) : M unit :=
  hostCall (ApplyConstraints track torchSetting) ;;
  match host with
  | Resolved _ => ret tt
  | Rejected e => throw e
  end.

(** Reading [.label] of [undefined]. *)
Definition TypeError : JsError :=
  mkError "Cannot read properties of undefined (reading 'label')" "TypeError".

(** ** State setters *)

Definition setCameraActive v := modify (with_cameraActive v).
Definition setCameraError v := modify (with_cameraError v).
Definition setTorchEnabled v := modify (with_torchEnabled v).
Definition setTorchSupported v := modify (with_torchSupported v).
Definition setMicActive v := modify (with_micActive v).
Definition setMicError v := modify (with_micError v).
Definition setMicRecording v := modify (with_micRecording v).
(** [setLogs] with an updater function, as the source calls it. *)
Definition setLogs (f : list LogEntry -> list LogEntry) : M unit :=
  modify (fun s => with_logs (f (logs s)) s).

(** ** [addLog] (page.js 26-31) *)

(** The template [`[${timestamp}] ${message}`]. *)
Definition logEntry (timestamp message : string) : string :=
  "[" ++ timestamp ++ "] " ++ message.

Definition addLog (message : string) (type : LogType) : M unit :=
  s <- get ;;
  let timestamp := toLocaleTimeString (clock s) in
  modify (with_clock (S (clock s))) ;;
  setLogs (fun prev => (prev ++ [mkLog (logEntry timestamp message) type])%list).

(** The entry [addLog message type] appends at the [n]-th clock reading. *)
Definition entryAt (n : nat) (message : string) (type : LogType) : LogEntry :=
  mkLog (logEntry (toLocaleTimeString n) message) type.

(** ** [startCamera] (page.js 34-71) *)

Definition startCamera_try (host : Settled MediaStream) : M unit :=
  addLog "Camera: Requesting permission..." Info ;;
  setCameraError None ;;
  stream <- getUserMedia VideoEnvironment host ;;
  addLog "Camera: Permission granted, stream obtained" Success ;;
  modify (with_streamRef (Some stream)) ;;
  modify (with_trackRef (hd_error (getVideoTracks stream))) ;;
  s <- get ;;
  match trackRef s with
  | Some track =>
      match track_getCapabilities track with
      | Some result =>
          capabilities <- getCapabilities track result ;;
          match capabilities with
          | Some (mkCapabilities (Some _)) =>
              setTorchSupported true ;;
              addLog "Camera: Torch is supported" Success
          | _ => addLog "Camera: Torch is not supported on this device" Info
          end
      | None => ret tt
      end
  | None => ret tt
  end ;;
  s <- get ;;
  match videoRef s with
  | Some _ =>
      modify (with_videoRef (Some (mkVideo (Some stream)))) ;;
      addLog "Camera: Video element source set" Success
  | None => ret tt
  end ;;
  setCameraActive true.

Definition startCamera_catch (error : JsError) : M unit :=
  let errorMsg :=
    "Camera: Permission denied or error occurred - " ++ reason error in
  addLog errorMsg Error ;;
  setCameraError (Some errorMsg) ;;
  setCameraActive false.

Definition startCamera (host : Settled MediaStream) : M unit :=
  try_catch (startCamera_try host) startCamera_catch.

(** ** [stopCamera] (page.js 74-111) *)

Definition stopCamera_try : M unit :=
  addLog "Camera: Stopping camera..." Info ;;
  s <- get ;;
  match streamRef s with
  | Some stream =>
      forEach (getVideoTracks stream) (fun track =>
        stop track ;;
        addLog ("Camera: Video track stopped (" ++ label track ++ ")") Success) ;;
      modify (with_streamRef None)
  | None => ret tt
  end ;;
  s <- get ;;
  match trackRef s with
  | Some track =>
      stop track ;;
      addLog "Camera: Track reference stopped" Success ;;
      modify (with_trackRef None)
  | None => ret tt
  end ;;
  s <- get ;;
  match videoRef s with
  | Some _ =>
      modify (with_videoRef (Some (mkVideo None))) ;;
      addLog "Camera: Video element source cleared" Success
  | None => ret tt
  end ;;
  setTorchEnabled false ;;
  setTorchSupported false ;;
  setCameraActive false ;;
  setCameraError None ;;
  addLog "Camera: Fully released" Success.

Definition stopCamera_catch (error : JsError) : M unit :=
  let errorMsg := "Camera: Error stopping - " ++ reason error in
  addLog errorMsg Error.

Definition stopCamera : M unit :=
  try_catch stopCamera_try stopCamera_catch.

(** ** [toggleTorch] (page.js 114-132)

    [torchSupported] and [torchEnabled] are the values of the render the
    handler was created in: they are read from the state at entry. *)

Definition toggleTorch_try (host : Settled unit) : M unit :=
  s <- get ;;
  match trackRef s, torchSupported s with
  | Some track, true =>
      let newTorchState := negb (torchEnabled s) in
      applyConstraints track newTorchState host ;;
      setTorchEnabled newTorchState ;;
      addLog ("Camera: Torch " ++
              (if newTorchState then "enabled" else "disabled")) Success
  | _, _ => addLog "Camera: Torch not available" Error
  end.

Definition toggleTorch_catch (error : JsError) : M unit :=
  let errorMsg := "Camera: Torch toggle error - " ++ reason error in
  addLog errorMsg Error.

Definition toggleTorch (host : Settled unit) : M unit :=
  try_catch (toggleTorch_try host) toggleTorch_catch.

(** ** [startMicrophone] (page.js 135-168) *)

Definition cameraWarning : string :=
  "Microphone: WARNING - Camera is still active. Ensure camera is fully stopped before requesting microphone.".

Definition isSome {A} (o : option A) : bool :=
  match o with Some _ => true | None => false end.

Definition startMicrophone_try (host : Settled MediaStream) : M unit :=
  addLog "Microphone: Requesting permission..." Info ;;
  setMicError None ;;
  s <- get ;;
  if cameraActive s || isSome (streamRef s) then
    addLog cameraWarning Error ;;
    setMicError (Some "Camera must be stopped first")
  else
    addLog "Microphone: Camera is not active - proceeding with permission request" Success ;;
    stream <- getUserMedia AudioTrue host ;;
    addLog "Microphone: Permission granted, stream obtained" Success ;;
    modify (with_micStreamRef (Some stream)) ;;
    modify (with_micTrackRef (hd_error (getAudioTracks stream))) ;;
    setMicActive true ;;
    setMicRecording true ;;
    s <- get ;;
    match micTrackRef s with
    | Some track =>
        addLog ("Microphone: Recording started (" ++ label track ++ ")") Success
    | None => throw TypeError
    end.

Definition startMicrophone_catch (error : JsError) : M unit :=
  let errorMsg := "Microphone: Permission denied or error - " ++ reason error in
  addLog errorMsg Error ;;
  setMicError (Some errorMsg) ;;
  setMicActive false ;;
  setMicRecording false.

Definition startMicrophone (host : Settled MediaStream) : M unit :=
  try_catch (startMicrophone_try host) startMicrophone_catch.

(** ** [stopMicrophone] (page.js 171-199) *)

Definition stopMicrophone_try : M unit :=
  addLog "Microphone: Stopping recording..." Info ;;
  s <- get ;;
  match micStreamRef s with
  | Some stream =>
      forEach (getAudioTracks stream) (fun track =>
        stop track ;;
        addLog ("Microphone: Audio track stopped (" ++ label track ++ ")") Success) ;;
      modify (with_micStreamRef None)
  | None => ret tt
  end ;;
  s <- get ;;
  match micTrackRef s with
  | Some track =>
      stop track ;;
      addLog "Microphone: Track reference stopped" Success ;;
      modify (with_micTrackRef None)
  | None => ret tt
  end ;;
  setMicRecording false ;;
  setMicActive false ;;
  setMicError None ;;
  addLog "Microphone: Fully released" Success.

Definition stopMicrophone_catch (error : JsError) : M unit :=
  let errorMsg := "Microphone: Error stopping - " ++ reason error in
  addLog errorMsg Error.

Definition stopMicrophone : M unit :=
  try_catch stopMicrophone_try stopMicrophone_catch.

(** ** [clearLogs] (page.js 224-227) *)

Definition clearLogs : M unit :=
  setLogs (fun _ => []) ;;
  addLog "Logs cleared" Info.

(** ** The cleanup of the unmount effect (page.js 202-221)

    It runs outside any [try] block and writes no log entry. *)

Definition cleanup : M unit :=
  s <- get ;;
  match streamRef s with
  | Some stream =>
      forEach (getVideoTracks stream) (fun track => stop track) ;;
      modify (with_streamRef None)
  | None => ret tt
  end ;;
  s <- get ;;
  match trackRef s with
  | Some track => stop track ;; modify (with_trackRef None)
  | None => ret tt
  end ;;
  s <- get ;;
  match micStreamRef s with
  | Some stream =>
      forEach (getAudioTracks stream) (fun track => stop track) ;;
      modify (with_micStreamRef None)
  | None => ret tt
  end ;;
  s <- get ;;
  match micTrackRef s with
  | Some track => stop track ;; modify (with_micTrackRef None)
  | None => ret tt
  end.

(** ** Calls of the controller *)

Inductive Op :=
| StartCamera (host : Settled MediaStream)
| StopCamera
| ToggleTorch (host : Settled unit)
| StartMicrophone (host : Settled MediaStream)
| StopMicrophone
| ClearLogs.

Definition handler (op : Op) : M unit :=
  match op with
  | StartCamera host => startCamera host
  | StopCamera => stopCamera
  | ToggleTorch host => toggleTorch host
  | StartMicrophone host => startMicrophone host
  | StopMicrophone => stopMicrophone
  | ClearLogs => clearLogs
  end.

Definition step (s : State) (op : Op) : State := final (handler op s).

Definition run (ops : list Op) (s : State) : State := fold_left step ops s.

(** States the handlers can reach, called in any order. *)
Inductive reachable : State -> Prop :=
| reachable_initial : reachable initial
| reachable_step s op : reachable s -> reachable (step s op).

(** The [disabled] attribute of the button that invokes each handler
    (page.js 272, 285, 298, 342, 355; the Clear button has none). *)
Definition disabled (op : Op) (s : State) : bool :=
  match op with
  | StartCamera _ => cameraActive s
  | StopCamera => negb (cameraActive s)
  | ToggleTorch _ => negb (cameraActive s) || negb (torchSupported s)
  | StartMicrophone _ => micRecording s || cameraActive s
  | StopMicrophone => negb (micRecording s)
  | ClearLogs => false
  end.


(** Sample states: the camera started on each of the sample streams, the
    torch then switched on, and a camera request that was denied. *)
Definition torchActive : State := step initial (StartCamera (Resolved torchStream)).
Definition plainActive : State := step initial (StartCamera (Resolved plainStream)).
Definition faultyActive : State := step initial (StartCamera (Resolved faultyStream)).

(** The microphone started from the initial state. *)
Definition micOn : State := step initial (StartMicrophone (Resolved micStream)).

(** ** Session state, as the data model of the specification groups it *)

Definition videoSession (s : State) :=
  (cameraActive s, cameraError s, streamRef s, trackRef s,
   torchSupported s, torchEnabled s).

Definition audioSession (s : State) :=
  (micActive s, micError s, micRecording s, micStreamRef s, micTrackRef s).

(** Everything the component owns except the log. *)
Definition component (s : State) :=
  (videoSession s, videoRef s, audioSession s).





(** ** Start and stop calls on one session *)

Inductive Call :=
| Start (host : Settled MediaStream)
| Stop.

Definition videoCall (c : Call) : Op :=
  match c with Start host => StartCamera host | Stop => StopCamera end.

Definition audioCall (c : Call) : Op :=
  match c with Start host => StartMicrophone host | Stop => StopMicrophone end.

(** Whether the [try] block of the handler runs to its end, that is,
    whether the call succeeds. *)
Definition videoCompletes (c : Call) (s : State) : bool :=
  match c with
  | Start host => returns (startCamera_try host s)
  | Stop => returns (stopCamera_try s)
  end.

(** A microphone start that is refused returns early from its [try]
    block: it has not succeeded either. *)
Definition audioCompletes (c : Call) (s : State) : bool :=
  match c with
  | Start host =>
      negb (cameraActive s || isSome (streamRef s)) &&
      returns (startMicrophone_try host s)
  | Stop => returns (stopMicrophone_try s)
  end.

(** Runs the calls and records, most recent first, each call with whether
    it succeeded. *)
Fixpoint history (toOp : Call -> Op) (completes : Call -> State -> bool)
    (calls : list Call) (s : State) (past : list (Call * bool))
    : list (Call * bool) * State :=
  match calls with
  | [] => (past, s)
  | c :: rest =>
      history toOp completes rest (step s (toOp c)) ((c, completes c s) :: past)
  end.

Definition isStart (c : Call) : bool :=
  match c with Start _ => true | Stop => false end.

(** The wording of the specification, over a history (most recent call
    first): the most recent start call succeeded and no stop call occurred
    after it. *)
Definition startedAndNotStopped (past : list (Call * bool)) : Prop :=
  exists host since before,
    past = (since ++ (Start host, true) :: before)%list /\
    Forall (fun cb => isStart (fst cb) = false) since /\
    Forall (fun cb => fst cb <> Stop) since.

(** The same, counting only the stop calls that succeeded: the most recent
    start call succeeded and no stop call succeeded after it. *)
Definition startedAndNoStopSucceeded (past : list (Call * bool)) : Prop :=
  exists host since before,
    past = (since ++ (Start host, true) :: before)%list /\
    Forall (fun cb => isStart (fst cb) = false) since /\
    Forall (fun cb => cb <> (Stop, true)) since.

(** ** What the handlers do to the component, in closed form

    The definitions below only name the conditions the handlers branch on;
    the effect lemmas further down relate them to the handlers. *)

(** Whether [track.stop()] returns. *)
Definition stops (t : Track) : bool := negb (isSome (track_stop t)).

(** Whether every track of a held stream stops without throwing. *)
Definition streamStops (tracksOf : MediaStream -> list Track) (o : option MediaStream) : bool :=
  match o with Some stream => forallb stops (tracksOf stream) | None => true end.

(** Whether a held track stops without throwing. *)
Definition trackStops (o : option Track) : bool :=
  match o with Some t => stops t | None => true end.

(** The display surface after [videoRef.current.srcObject = null]. *)
Definition clearedVideo (v : option VideoElement) : option VideoElement :=
  match v with Some _ => Some (mkVideo None) | None => None end.

(** The capability test of page.js 48-50 on the first video track. *)
Definition torchProbe (stream : MediaStream) : bool :=
  match hd_error (getVideoTracks stream) with
  | Some track =>
      match track_getCapabilities track with
      | Some (Some (mkCapabilities (Some _))) => true
      | _ => false
      end
  | None => false
  end.

(** The display surface after [videoRef.current.srcObject = stream]. *)
Definition attachedVideo (stream : MediaStream) (v : option VideoElement) :=
  match v with Some _ => Some (mkVideo (Some stream)) | None => None end.

(** Whether the awaited promise resolved. *)
Definition granted {A} (host : Settled A) : bool :=
  match host with Resolved _ => true | Rejected _ => false end.

(** The guard of page.js 141. *)
Definition micRefused (s : State) : bool := cameraActive s || isSome (streamRef s).

(** The two entries [startMicrophone] appends when it refuses. *)
Definition refusalEntries (s : State) : list LogEntry :=
  [entryAt (clock s) "Microphone: Requesting permission..." Info;
   entryAt (S (clock s)) cameraWarning Error].

(** ** Hosts whose releases do not throw *)

(** A stream none of whose tracks throws from [stop()]. *)
Definition releasable (stream : MediaStream) : bool :=
  forallb stops (getVideoTracks stream) && forallb stops (getAudioTracks stream).

(** A call in which the host grants, if anything, a releasable stream. *)
Definition callReleasable (c : Call) : Prop :=
  match c with
  | Start (Resolved stream) => releasable stream = true
  | _ => True
  end.

(** An entry of a history that is not a stop call that failed. *)
Definition stopCompleted (cb : Call * bool) : Prop :=
  fst cb = Stop -> snd cb = true.

(** Whatever the video session holds can be released without a throw. *)
Definition videoReleasable (s : State) : Prop :=
  streamStops getVideoTracks (streamRef s) = true /\ trackStops (trackRef s) = true.

(** The same for the audio session, with the camera out of the way. *)
Definition audioReleasable (s : State) : Prop :=
  micRefused s = false /\
  streamStops getAudioTracks (micStreamRef s) = true /\
  trackStops (micTrackRef s) = true.

(** ** Invariants of the reachable states *)





(** ** Closed forms and views for the further properties *)

(** The tracks on which a loop of [stop()] calls is attempted: all of them up
    to and including the first that throws. *)
Fixpoint attempted (tracks : list Track) : list Track :=
  match tracks with
  | [] => []
  | t :: rest => t :: (if stops t then attempted rest else [])
  end.

(** [s'] has the log of [s] followed by [added], one clock reading each. *)
Definition extends (s s' : State) (added : list LogEntry) : Prop :=
  logs s' = (logs s ++ added)%list /\ clock s' = clock s + length added.

(** The track behind a reference, as a list. *)
Definition heldList (held : option Track) : list Track :=
  match held with Some t => [t] | None => [] end.

(** The tracks a stop handler calls [stop()] on: those of the held stream
    that the loop attempts and, when the loop got through, the held track. *)
Definition stopCalls (tracksOf : MediaStream -> list Track)
    (o : option MediaStream) (held : option Track) : list Track :=
  (match o with Some stream => attempted (tracksOf stream) | None => [] end ++
   (if streamStops tracksOf o then heldList held else []))%list.



(** Whether a handler logs an error: its catch block runs or its guard
    turns the call down. *)
Definition fails (op : Op) (s : State) : bool :=
  match op with
  | StartCamera host => negb (granted host)
  | StopCamera =>
      negb (streamStops getVideoTracks (streamRef s) && trackStops (trackRef s))
  | ToggleTorch host =>
      negb (isSome (trackRef s) && torchSupported s && granted host)
  | StartMicrophone host =>
      micRefused s ||
      match host with
      | Resolved stream => negb (isSome (hd_error (getAudioTracks stream)))
      | Rejected _ => true
      end
  | StopMicrophone =>
      negb (streamStops getAudioTracks (micStreamRef s) && trackStops (micTrackRef s))
  | ClearLogs => false
  end.

(** The tracks the cleanup calls [stop()] on. *)
Definition cleanupCalls (s : State) : list Track :=
  let video := stopCalls getVideoTracks (streamRef s) (trackRef s) in
  let audio := stopCalls getAudioTracks (micStreamRef s) (micTrackRef s) in
  if streamStops getVideoTracks (streamRef s) && trackStops (trackRef s)
  then (video ++ audio)%list else video.

(** The recording flag follows the active flag. *)
Definition paired (s : State) : Prop := micRecording s = micActive s.





(** The [try] block of a handler ([clearLogs] has none). *)
Definition tryOf (op : Op) : M unit :=
  match op with
  | StartCamera host => startCamera_try host
  | StopCamera => stopCamera_try
  | ToggleTorch host => toggleTorch_try host
  | StartMicrophone host => startMicrophone_try host
  | StopMicrophone => stopMicrophone_try
  | ClearLogs => clearLogs
  end.

(** The catch block of the handler runs. *)
Definition caught (op : Op) (s : State) : bool := negb (returns (tryOf op s)).

(** The guard of the handler turns the call down (page.js 116, 141). *)
Definition rejected (op : Op) (s : State) : bool :=
  match op with
  | ToggleTorch _ => negb (isSome (trackRef s)) || negb (torchSupported s)
  | StartMicrophone _ => cameraActive s || isSome (streamRef s)
  | _ => false
  end.

(** The status line of the microphone (page.js 329). *)
Inductive MicStatus := StatusRecording | StatusPermissionDenied | StatusNotActive.

(** Truthiness of a string-or-null state variable. *)
Definition truthy (o : option string) : bool :=
  match o with
  | Some str => negb (String.eqb str "")
  | None => false
  end.

Definition micStatus (s : State) : MicStatus :=
  if micRecording s then StatusRecording
  else if truthy (micError s) then StatusPermissionDenied
  else StatusNotActive.

(** The test [logs.length === 0] of the log panel (page.js 384). *)
Definition showsNoLogsYet (s : State) : bool := Nat.eqb (length (logs s)) 0.

(** The handlers of the camera section and those of the microphone section. *)
Definition cameraOp (op : Op) : bool :=
  match op with
  | StartCamera _ | StopCamera | ToggleTorch _ => true
  | _ => false
  end.

Definition microphoneOp (op : Op) : bool :=
  match op with
  | StartMicrophone _ | StopMicrophone => true
  | _ => false
  end.

(** * Properties of the handlers *)

Arguments logEntry : simpl never.
Arguments entryAt : simpl never.

Ltac destruct_state s :=
  destruct s as [ca ce te ts vr sr tr ma me mr ms mt lg hc ck]; cbn in *.

Ltac run_handler :=
  unfold startCamera, stopCamera, toggleTorch, startMicrophone,
    stopMicrophone, clearLogs, try_catch, startCamera_try, stopCamera_try,
    toggleTorch_try, startMicrophone_try, stopMicrophone_try; cbn.

Lemma isSome_true {A} (o : option A) : isSome o = true <-> o <> None.
Proof. destruct o; simpl; split; congruence. Qed.

(** ** The microphone refuses to start over a held camera *)

Lemma startMicrophone_refusal host s :
  cameraActive s = true \/ streamRef s <> None ->
  startMicrophone host s =
  Returned tt
    (with_micError (Some "Camera must be stopped first")
       (with_logs (logs s ++ refusalEntries s)%list
          (with_clock (S (S (clock s))) s))).
Proof.
  intros Hheld. destruct_state s. run_handler.
  assert (E : ca || isSome sr = true).
  { destruct Hheld as [H | H].
    - now rewrite H.
    - apply orb_true_iff; right; now apply isSome_true. }
  rewrite E. cbn. unfold refusalEntries. cbn.
  now rewrite <- app_assoc.
Qed.

(** C1. Whenever the video session is active or its stream handle is still
    held, [startMicrophone] returns normally with the microphone error set to
    'Camera must be stopped first', has appended the request entry and one
    error entry to the log, and has issued no host call: the list of host
    calls, [getUserMedia] included, is as it was. *)
Theorem startMicrophone_refuses_while_camera_held host s
    (Hheld : cameraActive s = true \/ streamRef s <> None) :
  let o := startMicrophone host s in
  returns o = true /\
  micError (final o) = Some "Camera must be stopped first" /\
  logs (final o) = (logs s ++ refusalEntries s)%list /\
  filter isError (refusalEntries s) =
    [entryAt (S (clock s)) cameraWarning Error] /\
  hostCalls (final o) = hostCalls s.
Proof.
  cbv zeta. rewrite (startMicrophone_refusal host s Hheld).
  destruct_state s. repeat split.
Qed.

(** C10. On the refusing path of [startMicrophone] the active and recording
    flags and the stream and track references of the microphone keep their
    values, and so does everything else: the state afterwards is the state
    before with only the microphone error and the log replaced (and the
    clock of the host advanced by the two timestamps read). *)
Theorem startMicrophone_refusal_frame host s
    (Hheld : cameraActive s = true \/ streamRef s <> None) :
  let s' := final (startMicrophone host s) in
  micActive s' = micActive s /\
  micRecording s' = micRecording s /\
  micStreamRef s' = micStreamRef s /\
  micTrackRef s' = micTrackRef s /\
  s' = with_micError (micError s')
         (with_logs (logs s') (with_clock (clock s') s)).
Proof.
  cbv zeta. rewrite (startMicrophone_refusal host s Hheld).
  destruct_state s. repeat split.
Qed.

(** ** A rejected camera request *)


(** ** The torch *)

Lemma toggleTorch_not_available host s :
  trackRef s = None \/ torchSupported s = false ->
  toggleTorch host s =
  Returned tt
    (with_logs (logs s ++ [entryAt (clock s) "Camera: Torch not available" Error])%list
       (with_clock (S (clock s)) s)).
Proof.
  intros H. destruct_state s. run_handler.
  destruct H as [H | H]; rewrite H.
  - reflexivity.
  - destruct tr; reflexivity.
Qed.

(** C7. With [torchSupported] false, [toggleTorch] changes nothing but the
    log, to which it appends the one entry 'Camera: Torch not available' of
    type error (reading the host clock once): [torchEnabled] and the rest of
    the state are as before and no [applyConstraints] call is issued.  In
    particular, when [startCamera] succeeds from a state with the torch flags
    false on a stream whose first track answers the capability query without
    a [torch] key, [torchSupported] is still false, and a toggle then appends
    the 'not available' entry and leaves [torchEnabled] false. *)
Theorem toggleTorch_unsupported host s (Hunsupported : torchSupported s = false) :
  toggleTorch host s =
    Returned tt
      (with_logs (logs s ++ [entryAt (clock s) "Camera: Torch not available" Error])%list
         (with_clock (S (clock s)) s)) /\
  torchEnabled (final (toggleTorch host s)) = torchEnabled s /\
  hostCalls (final (toggleTorch host s)) = hostCalls s /\
  (forall stream track rest,
     torchEnabled s = false ->
     getVideoTracks stream = track :: rest ->
     track_getCapabilities track = Some (Some (mkCapabilities None)) ->
     let s1 := final (startCamera (Resolved stream) s) in
     let s2 := final (toggleTorch host s1) in
     cameraActive s1 = true /\
     torchSupported s1 = false /\
     logs s2 = (logs s1 ++ [entryAt (clock s1) "Camera: Torch not available" Error])%list /\
     hostCalls s2 = hostCalls s1 /\
     torchEnabled s2 = false).
Proof.
  rewrite (toggleTorch_not_available host s (or_intror Hunsupported)).
  do 3 (split; [now destruct s |]).
  intros stream track rest Hoff Htracks Hcaps. cbv zeta.
  assert (Hs1 : cameraActive (final (startCamera (Resolved stream) s)) = true /\
                torchSupported (final (startCamera (Resolved stream) s)) = false /\
                torchEnabled (final (startCamera (Resolved stream) s)) = false).
  { destruct stream as [videoTracks audioTracks]. cbn in Htracks. subst videoTracks.
    destruct track as [lbl stopped caps]. cbn in Hcaps. subst caps.
    destruct_state s. subst. run_handler.
    destruct vr; cbn; auto. }
  destruct Hs1 as (Ha & Hsup & Hen).
  rewrite (toggleTorch_not_available host _ (or_intror Hsup)).
  cbn. destruct (final _). cbn in *. auto.
Qed.


(** ** Clearing the log *)

(** C9. From any state, right after [clearLogs] the log consists of exactly
    one entry, the 'Logs cleared' entry of type info stamped with the time
    read during the call; none of the earlier entries is left. *)
Theorem clearLogs_single_entry s :
  returns (clearLogs s) = true /\
  logs (final (clearLogs s)) = [entryAt (clock s) "Logs cleared" Info].
Proof. destruct_state s. split; reflexivity. Qed.

(** * Effects of the handlers on the component *)

Lemma try_catch_returns {A} (body : M A) (handler : JsError -> M A) s :
  (forall e s', returns (handler e s') = true) ->
  returns (try_catch body handler s) = true.
Proof.
  intros Hhandler. unfold try_catch.
  destruct (body s); [reflexivity | apply Hhandler].
Qed.

(** No handler lets an exception escape. *)
Lemma handler_returns op s : returns (handler op s) = true.
Proof.
  destruct op; cbn;
    try (apply try_catch_returns; intros e s'; now destruct s').
  now destruct s.
Qed.

Lemma forEach_effect (f : Track -> M unit) tracks :
  (forall t s,
     component (final (f t s)) = component s /\ returns (f t s) = stops t) ->
  forall s,
    component (final (forEach tracks f s)) = component s /\
    returns (forEach tracks f s) = forallb stops tracks.
Proof.
  intros Hf. induction tracks as [| t rest IH]; intros s.
  - split; reflexivity.
  - cbn. unfold bind. destruct (Hf t s) as [Hc Hr].
    destruct (f t s) as [[] s1 | e s1]; cbn in *; rewrite <- Hr; cbn.
    + destruct (IH s1) as [Hc1 Hr1]. split; congruence.
    + split; congruence.
Qed.

Lemma stop_logged_effect describe t s :
  component (final ((stop t ;; addLog (describe t) Success) s)) = component s /\
  returns ((stop t ;; addLog (describe t) Success) s) = stops t.
Proof.
  destruct s. unfold stops, stop, bind. cbn.
  destruct (track_stop t); cbn; split; reflexivity.
Qed.

Ltac forEach_cases :=
  match goal with
  | |- context [forEach ?l ?f ?s0] =>
      let Hc := fresh "Hc" in
      let Hr := fresh "Hr" in
      let s1 := fresh "s1" in
      destruct (forEach_effect f l (stop_logged_effect _) s0) as [Hc Hr];
      destruct (forEach l f s0) as [[] s1 | ? s1];
      cbn in Hc, Hr |- *; rewrite <- Hr; cbn;
      destruct s1; cbn in Hc |- *;
      unfold component, videoSession, audioSession in Hc; cbn in Hc
  end.

Lemma stopCamera_effect s :
  returns (stopCamera_try s) =
    streamStops getVideoTracks (streamRef s) && trackStops (trackRef s) /\
  component (final (stopCamera s)) =
    if streamStops getVideoTracks (streamRef s) then
      if trackStops (trackRef s) then
        ((false, None, None, None, false, false),
         clearedVideo (videoRef s), audioSession s)
      else
        ((cameraActive s, cameraError s, None, trackRef s,
          torchSupported s, torchEnabled s),
         videoRef s, audioSession s)
    else component s.
Proof.
  destruct_state s. run_handler.
  destruct sr as [stream |]; unfold bind; cbn.
  - forEach_cases.
    + injection Hc as -> -> -> -> -> -> -> -> -> -> -> ->.
      destruct tr as [t |]; cbn;
        [unfold stops; destruct (track_stop t); cbn |];
        destruct vr; cbn; split; reflexivity.
    + split; [reflexivity | exact Hc].
  - destruct tr as [t |]; cbn;
      [unfold stops; destruct (track_stop t); cbn |];
      destruct vr; cbn; split; reflexivity.
Qed.

Lemma stopMicrophone_effect s :
  returns (stopMicrophone_try s) =
    streamStops getAudioTracks (micStreamRef s) && trackStops (micTrackRef s) /\
  component (final (stopMicrophone s)) =
    (videoSession s, videoRef s,
     if streamStops getAudioTracks (micStreamRef s) then
       if trackStops (micTrackRef s) then (false, None, false, None, None)
       else (micActive s, micError s, micRecording s, None, micTrackRef s)
     else audioSession s).
Proof.
  destruct_state s. run_handler.
  destruct ms as [stream |]; unfold bind; cbn.
  - forEach_cases.
    + injection Hc as -> -> -> -> -> -> -> -> -> -> -> ->.
      destruct mt as [t |]; cbn;
        [unfold stops; destruct (track_stop t); cbn |];
        split; reflexivity.
    + split; [reflexivity | exact Hc].
  - destruct mt as [t |]; cbn;
      [unfold stops; destruct (track_stop t); cbn |];
      split; reflexivity.
Qed.

Lemma clearLogs_effect s : component (final (clearLogs s)) = component s.
Proof. now destruct s. Qed.

Lemma startCamera_effect host s :
  returns (startCamera_try host s) = granted host /\
  component (final (startCamera host s)) =
    match host with
    | Resolved stream =>
        ((true, None, Some stream, hd_error (getVideoTracks stream),
          torchProbe stream || torchSupported s, torchEnabled s),
         attachedVideo stream (videoRef s), audioSession s)
    | Rejected e =>
        ((false,
          Some ("Camera: Permission denied or error occurred - " ++ reason e),
          streamRef s, trackRef s, torchSupported s, torchEnabled s),
         videoRef s, audioSession s)
    end.
Proof.
  destruct_state s. destruct host as [[videoTracks audioTracks] | e].
  - destruct videoTracks as [| [lbl stopped [[[[b |]] |] |]] rest];
      destruct vr; run_handler; split; reflexivity.
  - run_handler. split; reflexivity.
Qed.

Lemma toggleTorch_effect host s :
  component (final (toggleTorch host s)) =
    match trackRef s, torchSupported s, host with
    | Some _, true, Resolved _ =>
        ((cameraActive s, cameraError s, streamRef s, trackRef s,
          torchSupported s, negb (torchEnabled s)),
         videoRef s, audioSession s)
    | _, _, _ => component s
    end.
Proof.
  destruct_state s. destruct tr, ts, host; reflexivity.
Qed.

Lemma startMicrophone_effect host s :
  returns (startMicrophone_try host s) =
    (micRefused s ||
     match host with
     | Resolved stream => isSome (hd_error (getAudioTracks stream))
     | Rejected _ => false
     end) /\
  component (final (startMicrophone host s)) =
    (videoSession s, videoRef s,
     if micRefused s then
       (micActive s, Some "Camera must be stopped first", micRecording s,
        micStreamRef s, micTrackRef s)
     else
       match host with
       | Resolved stream =>
           match hd_error (getAudioTracks stream) with
           | Some track => (true, None, true, Some stream, Some track)
           | None =>
               (false,
                Some ("Microphone: Permission denied or error - " ++ reason TypeError),
                false, Some stream, None)
           end
       | Rejected e =>
           (false, Some ("Microphone: Permission denied or error - " ++ reason e),
            false, micStreamRef s, micTrackRef s)
       end).
Proof.
  destruct_state s. unfold micRefused. cbn.
  destruct host as [[videoTracks [| track rest]] | e];
    destruct ca, sr; split; reflexivity.
Qed.


(** * Reachable states *)

Lemma run_snoc ops op s : run (ops ++ [op]) s = step (run ops s) op.
Proof. unfold run. now rewrite fold_left_app. Qed.

(** Running a list of calls from the initial state stays within the
    reachable states. *)
Lemma reachable_run ops : reachable (run ops initial).
Proof.
  induction ops as [| op ops IH] using rev_ind.
  - constructor.
  - rewrite run_snoc. now constructor.
Qed.

(** Brings the effect lemma of the handler of [op] into the context as an
    equation between the fields of the two states. *)
Ltac step_effect s op Hc :=
  unfold step;
  destruct op as [host | | host | host | |]; cbn [handler];
  [ destruct (startCamera_effect host s) as [_ Hc]
  | destruct (stopCamera_effect s) as [_ Hc]
  | pose proof (toggleTorch_effect host s) as Hc
  | destruct (startMicrophone_effect host s) as [_ Hc]
  | destruct (stopMicrophone_effect s) as [_ Hc]
  | pose proof (clearLogs_effect s) as Hc ];
  match type of Hc with component (final ?o) = _ => destruct (final o) end;
  destruct_state s;
  unfold component, videoSession, audioSession, micRefused in Hc; cbn in Hc.

Ltac split_effect Hc :=
  repeat match type of Hc with
         | context [if ?b then _ else _] => destruct b eqn:?
         | context [match ?x with _ => _ end] => destruct x eqn:?
         end;
  injection Hc as -> -> -> -> -> -> -> -> -> -> -> ->.











(** * Properties of the reachable states *)




(** * Sequences of start and stop calls *)

Lemma not_started_at_first : ~ startedAndNoStopSucceeded [].
Proof. intros (h & since & before & E & _). now destruct since. Qed.

Lemma started_after_start host b past :
  startedAndNoStopSucceeded ((Start host, b) :: past) <-> b = true.
Proof.
  split.
  - intros (h & since & before & E & Hstarts & _).
    destruct since as [| x since]; cbn in E.
    + now injection E.
    + injection E as <- _. inversion Hstarts; subst. discriminate.
  - intros ->. exists host, [], past. repeat split; constructor.
Qed.

Lemma started_after_stop b past :
  startedAndNoStopSucceeded ((Stop, b) :: past) <->
  b = false /\ startedAndNoStopSucceeded past.
Proof.
  split.
  - intros (h & since & before & E & Hstarts & Hstops).
    destruct since as [| x since]; cbn in E; [discriminate |].
    injection E as <- E. inversion Hstarts; subst. inversion Hstops; subst.
    split.
    + destruct b; [congruence | reflexivity].
    + exists h, since, before. auto.
  - intros [-> (h & since & before & -> & Hstarts & Hstops)].
    exists h, ((Stop, false) :: since), before.
    repeat split; constructor; auto; discriminate.
Qed.

Section History.

Variable toOp : Call -> Op.
Variable completes : Call -> State -> bool.
Variable active : State -> bool.
Variable calm : State -> Prop.

Hypothesis calm_step : forall c s, calm s -> calm (step s (toOp c)).
Hypothesis active_step : forall c s, calm s ->
  active (step s (toOp c)) =
    match c with
    | Start _ => completes c s
    | Stop => if completes c s then false else active s
    end.

Lemma history_active calls : forall s past,
  calm s ->
  (active s = true <-> startedAndNoStopSucceeded past) ->
  active (snd (history toOp completes calls s past)) = true <->
  startedAndNoStopSucceeded (fst (history toOp completes calls s past)).
Proof.
  induction calls as [| c calls IH]; intros s past Hcalm Hs; [exact Hs |].
  cbn. apply IH; [now apply calm_step |].
  rewrite (active_step c s Hcalm). destruct c as [host |].
  - now rewrite started_after_start.
  - rewrite started_after_stop. destruct (completes Stop s).
    + split; [discriminate | now intros [? _]].
    + rewrite Hs. tauto.
Qed.

End History.

Lemma cameraActive_after_call c s :
  cameraActive (step s (videoCall c)) =
    match c with
    | Start _ => videoCompletes c s
    | Stop => if videoCompletes c s then false else cameraActive s
    end.
Proof.
  destruct c as [host |]; unfold step; cbn [videoCall handler videoCompletes].
  - destruct (startCamera_effect host s) as [-> Hc].
    destruct (final (startCamera host s)).
    unfold component, videoSession in Hc; cbn in Hc.
    destruct host; now injection Hc.
  - destruct (stopCamera_effect s) as [-> Hc].
    destruct (final (stopCamera s)). destruct_state s.
    unfold component, videoSession in Hc; cbn in Hc.
    destruct (streamStops getVideoTracks sr), (trackStops tr); now injection Hc.
Qed.

Lemma micActive_after_call c s :
  micRefused s = false ->
  micRefused (step s (audioCall c)) = false /\
  micActive (step s (audioCall c)) =
    match c with
    | Start _ => audioCompletes c s
    | Stop => if audioCompletes c s then false else micActive s
    end.
Proof.
  intros Hfree.
  destruct c as [host |]; unfold step; cbn [audioCall handler audioCompletes].
  - destruct (startMicrophone_effect host s) as [-> Hc]. rewrite Hfree in Hc.
    fold (micRefused s). rewrite Hfree. cbn [negb orb andb].
    destruct (final (startMicrophone host s)). destruct_state s.
    unfold component, videoSession, audioSession, micRefused in *; cbn in *.
    destruct host as [stream | e]; [destruct (hd_error (getAudioTracks stream)) |];
      injection Hc as -> -> -> -> -> -> -> -> -> -> -> ->; now split.
  - destruct (stopMicrophone_effect s) as [-> Hc].
    destruct (final (stopMicrophone s)). destruct_state s.
    unfold component, videoSession, audioSession, micRefused in *; cbn in *.
    destruct (streamStops getAudioTracks ms), (trackStops mt);
      injection Hc as -> -> -> -> -> -> -> -> -> -> -> ->; now split.
Qed.

Lemma started_when_stops_complete past :
  Forall stopCompleted past ->
  startedAndNoStopSucceeded past <-> startedAndNotStopped past.
Proof.
  intros Hpast.
  split; intros (host & since & before & -> & Hstarts & Hstops);
    exists host, since, before; repeat split; auto;
    apply Forall_app in Hpast as [Hsince _];
    rewrite Forall_forall in *; intros [c b] Hin.
  - intros Hc. cbn in Hc. subst c.
    apply (Hstops _ Hin). f_equal. exact (Hsince _ Hin eq_refl).
  - intros [= -> ->]. now apply (Hstops _ Hin).
Qed.

Lemma hd_error_stops tracks :
  forallb stops tracks = true -> trackStops (hd_error tracks) = true.
Proof. destruct tracks; cbn; [reflexivity | now intros [? _]%andb_true_iff]. Qed.

Section StopsComplete.

Variable toOp : Call -> Op.
Variable completes : Call -> State -> bool.
Variable good : State -> Prop.

Hypothesis good_step : forall c s,
  callReleasable c -> good s -> good (step s (toOp c)).
Hypothesis good_stop : forall s, good s -> completes Stop s = true.

Lemma history_stops_complete calls : forall s past,
  Forall callReleasable calls -> good s -> Forall stopCompleted past ->
  Forall stopCompleted (fst (history toOp completes calls s past)).
Proof.
  induction calls as [| c calls IH]; intros s past Hcalls Hs Hpast; [exact Hpast |].
  inversion Hcalls; subst. cbn. apply IH; auto.
  constructor; [| exact Hpast].
  intros Hc. cbn in *. subst c. now apply good_stop.
Qed.

End StopsComplete.

Lemma videoReleasable_step c s :
  callReleasable c -> videoReleasable s -> videoReleasable (step s (videoCall c)).
Proof.
  intros Hc [Hstream Htrack].
  destruct c as [host |]; unfold step; cbn [videoCall handler].
  - destruct (startCamera_effect host s) as [_ Heff].
    destruct (final (startCamera host s)). destruct_state s.
    unfold component, videoSession, videoReleasable in *; cbn in *.
    destruct host as [stream | e];
      injection Heff as -> -> -> -> -> -> -> -> -> -> -> ->; cbn; [| now split].
    apply andb_true_iff in Hc as [Hvideo _].
    split; [exact Hvideo | now apply hd_error_stops].
  - destruct (stopCamera_effect s) as [_ Heff]. rewrite Hstream, Htrack in Heff.
    destruct (final (stopCamera s)).
    unfold component, videoSession, videoReleasable in *; cbn in *.
    injection Heff as -> -> -> -> -> -> -> -> -> -> -> ->. now split.
Qed.

Lemma audioReleasable_step c s :
  callReleasable c -> audioReleasable s -> audioReleasable (step s (audioCall c)).
Proof.
  intros Hc (Hfree & Hstream & Htrack).
  destruct c as [host |]; unfold step; cbn [audioCall handler].
  - destruct (startMicrophone_effect host s) as [_ Heff]. rewrite Hfree in Heff.
    destruct (final (startMicrophone host s)). destruct_state s.
    unfold component, videoSession, audioSession, audioReleasable, micRefused in *;
      cbn in *.
    destruct host as [stream | e];
      [destruct (hd_error (getAudioTracks stream)) eqn:Ehd |];
      injection Heff as -> -> -> -> -> -> -> -> -> -> -> ->; cbn;
      try (now repeat split);
      apply andb_true_iff in Hc as [_ Haudio]; repeat split; auto.
    apply hd_error_stops in Haudio. now rewrite Ehd in Haudio.
  - destruct (stopMicrophone_effect s) as [_ Heff]. rewrite Hstream, Htrack in Heff.
    destruct (final (stopMicrophone s)). destruct_state s.
    unfold component, videoSession, audioSession, audioReleasable, micRefused in *;
      cbn in *.
    injection Heff as -> -> -> -> -> -> -> -> -> -> -> ->. now repeat split.
Qed.

Lemma video_stops_complete calls :
  Forall callReleasable calls ->
  Forall stopCompleted (fst (history videoCall videoCompletes calls initial [])).
Proof.
  intros Hcalls.
  apply (history_stops_complete videoCall videoCompletes videoReleasable);
    auto using videoReleasable_step.
  - intros s [Hstream Htrack]. unfold videoCompletes.
    destruct (stopCamera_effect s) as [-> _]. now rewrite Hstream, Htrack.
  - now split.
Qed.

Lemma audio_stops_complete calls :
  Forall callReleasable calls ->
  Forall stopCompleted (fst (history audioCall audioCompletes calls initial [])).
Proof.
  intros Hcalls.
  apply (history_stops_complete audioCall audioCompletes audioReleasable);
    auto using audioReleasable_step.
  - intros s (_ & Hstream & Htrack). unfold audioCompletes.
    destruct (stopMicrophone_effect s) as [-> _]. now rewrite Hstream, Htrack.
  - now repeat split.
Qed.

(** C4 (amended). For every sequence of start and stop calls on the video
    session, and for every such sequence on the audio session, run from the
    initial state: the active flag is true afterwards if and only if the most
    recent start call succeeded and no stop call succeeded after it.  A stop
    call whose release throws does not count: it leaves the flag as it is.
    When no track of a granted stream throws from [stop()], every stop call
    succeeds and the flag is true if and only if the most recent start call
    succeeded and no stop call occurred after it. *)
Theorem active_iff_started_and_no_stop_succeeded calls :
  (cameraActive (snd (history videoCall videoCompletes calls initial [])) = true <->
   startedAndNoStopSucceeded
     (fst (history videoCall videoCompletes calls initial []))) /\
  (micActive (snd (history audioCall audioCompletes calls initial [])) = true <->
   startedAndNoStopSucceeded
     (fst (history audioCall audioCompletes calls initial []))) /\
  (Forall callReleasable calls ->
   (cameraActive (snd (history videoCall videoCompletes calls initial [])) = true <->
    startedAndNotStopped
      (fst (history videoCall videoCompletes calls initial []))) /\
   (micActive (snd (history audioCall audioCompletes calls initial [])) = true <->
    startedAndNotStopped
      (fst (history audioCall audioCompletes calls initial [])))).
Proof.
  assert (Hvideo :
    cameraActive (snd (history videoCall videoCompletes calls initial [])) = true <->
    startedAndNoStopSucceeded
      (fst (history videoCall videoCompletes calls initial []))).
  { apply (history_active videoCall videoCompletes cameraActive (fun _ => True));
      auto using cameraActive_after_call.
    split; [discriminate | intros H; now apply not_started_at_first in H]. }
  assert (Haudio :
    micActive (snd (history audioCall audioCompletes calls initial [])) = true <->
    startedAndNoStopSucceeded
      (fst (history audioCall audioCompletes calls initial []))).
  { apply (history_active audioCall audioCompletes micActive
             (fun s => micRefused s = false)).
    - intros c s Hs. now apply micActive_after_call.
    - intros c s Hs. now apply micActive_after_call.
    - reflexivity.
    - split; [discriminate | intros H; now apply not_started_at_first in H]. }
  split; [exact Hvideo |]. split; [exact Haudio |].
  intros Hcalls. split.
  - rewrite Hvideo.
    now apply started_when_stops_complete, video_stops_complete.
  - rewrite Haudio.
    now apply started_when_stops_complete, audio_stops_complete.
Qed.

(** * Traces of the handlers: host calls and log entries *)

Lemma extends_refl s : extends s s [].
Proof. split; [now rewrite app_nil_r | cbn; lia]. Qed.

Lemma extends_trans s1 s2 s3 a b :
  extends s1 s2 a -> extends s2 s3 b -> extends s1 s3 (a ++ b)%list.
Proof.
  intros [Hl1 Hc1] [Hl2 Hc2]. split.
  - now rewrite Hl2, Hl1, app_assoc.
  - rewrite Hc2, Hc1, length_app. lia.
Qed.

Lemma forEach_calls (f : Track -> M unit) tracks :
  (forall t s,
     hostCalls (final (f t s)) = (hostCalls s ++ [TrackStop t])%list /\
     returns (f t s) = stops t) ->
  forall s,
    hostCalls (final (forEach tracks f s)) =
      (hostCalls s ++ map TrackStop (attempted tracks))%list.
Proof.
  intros Hf. induction tracks as [| t rest IH]; intros s.
  - cbn. now rewrite app_nil_r.
  - cbn. unfold bind. destruct (Hf t s) as [Hc Hr].
    destruct (f t s) as [[] s1 | e s1]; cbn in *; rewrite <- Hr.
    + rewrite IH, Hc, <- app_assoc. reflexivity.
    + exact Hc.
Qed.

Lemma forEach_logs (f : Track -> M unit) tracks :
  (forall t s, exists added,
     extends s (final (f t s)) added /\ filter isError added = []) ->
  forall s, exists added,
    extends s (final (forEach tracks f s)) added /\ filter isError added = [].
Proof.
  intros Hf. induction tracks as [| t rest IH]; intros s.
  - exists []. split; [apply extends_refl | reflexivity].
  - cbn. unfold bind. destruct (Hf t s) as (a & Ha & Hea).
    destruct (f t s) as [[] s1 | e s1]; cbn in *.
    + destruct (IH s1) as (b & Hb & Heb). exists (a ++ b)%list.
      split; [now apply extends_trans with s1 |].
      now rewrite filter_app, Hea, Heb.
    + now exists a.
Qed.

Lemma stop_logged_calls describe t s :
  hostCalls (final ((stop t ;; addLog (describe t) Success) s)) =
    (hostCalls s ++ [TrackStop t])%list /\
  returns ((stop t ;; addLog (describe t) Success) s) = stops t.
Proof.
  destruct s. unfold stops, stop, bind. cbn.
  destruct (track_stop t); cbn; split; reflexivity.
Qed.

Lemma stop_logged_logs describe t s :
  exists added,
    extends s (final ((stop t ;; addLog (describe t) Success) s)) added /\
    filter isError added = [].
Proof.
  destruct s. unfold stops, stop, bind, extends. cbn.
  destruct (track_stop t); cbn.
  - exists []. cbn. rewrite app_nil_r. repeat split; lia.
  - eexists [_]. cbn. repeat split; lia.
Qed.

Lemma stop_effect t s :
  component (final (stop t s)) = component s /\ returns (stop t s) = stops t.
Proof.
  destruct s. unfold stops, stop, bind. cbn.
  destruct (track_stop t); cbn; split; reflexivity.
Qed.

Lemma stop_calls t s :
  hostCalls (final (stop t s)) = (hostCalls s ++ [TrackStop t])%list /\
  returns (stop t s) = stops t.
Proof.
  destruct s. unfold stops, stop, bind. cbn.
  destruct (track_stop t); cbn; split; reflexivity.
Qed.

Lemma stop_silent t s :
  exists added, extends s (final (stop t s)) added /\ filter isError added = [].
Proof.
  exists []. destruct s. unfold stop, bind, extends. cbn.
  destruct (track_stop t); cbn; rewrite app_nil_r; repeat split; lia.
Qed.

Ltac forEach_trace :=
  match goal with
  | |- context [forEach ?l ?f ?s0] =>
      let Hc := fresh "Hc" in
      let Hr := fresh "Hr" in
      let Hcalls := fresh "Hcalls" in
      let Hadded := fresh "Hadded" in
      let Herr := fresh "Herr" in
      let added := fresh "added" in
      let s1 := fresh "s1" in
      destruct (forEach_effect f l (stop_logged_effect _) s0) as [Hc Hr];
      pose proof (forEach_calls f l (stop_logged_calls _) s0) as Hcalls;
      destruct (forEach_logs f l (stop_logged_logs _) s0) as (added & Hadded & Herr);
      destruct (forEach l f s0) as [[] s1 | ? s1];
      cbn in Hc, Hr, Hcalls, Hadded |- *; try rewrite <- Hr; cbn;
      destruct s1; destruct Hadded as [Hadded ?];
      unfold component, videoSession, audioSession in Hc; cbn in *;
      injection Hc as -> -> -> -> -> -> -> -> -> -> -> ->; subst
  end.

Ltac solve_trace Herr :=
  eexists; split;
  [ split; cbn; [rewrite <- ?app_assoc; cbn; reflexivity |
                 cbn; rewrite ?length_app; cbn; lia]
  | cbn; rewrite ?filter_app, ?Herr; cbn; split; [discriminate || (intros H0; now destruct (app_eq_nil _ _ H0)) | reflexivity] ].

Lemma stopCamera_trace s :
  hostCalls (final (stopCamera s)) =
    (hostCalls s ++
     map TrackStop (stopCalls getVideoTracks (streamRef s) (trackRef s)))%list /\
  exists added,
    extends s (final (stopCamera s)) added /\
    added <> [] /\
    length (filter isError added) =
      if streamStops getVideoTracks (streamRef s) && trackStops (trackRef s)
      then 0 else 1.
Proof.
  destruct_state s. run_handler. unfold stopCalls.
  destruct sr as [stream |]; unfold bind; cbn.
  - forEach_trace.
    + destruct tr as [t |]; cbn;
        [unfold stops; destruct (track_stop t); cbn |];
        destruct vr; cbn;
        (split; [rewrite ?map_app, ?app_nil_r, <- ?app_assoc; cbn; rewrite ?app_nil_r; reflexivity |]);
        solve_trace Herr.
    + rewrite app_nil_r. split; [reflexivity |]. solve_trace Herr.
  - destruct tr as [t |]; cbn;
      [unfold stops; destruct (track_stop t); cbn |];
      destruct vr; cbn;
      (split; [rewrite ?app_nil_r; reflexivity |]);
      eexists; (split; [split; cbn; [rewrite <- ?app_assoc; cbn; reflexivity | cbn; lia] |]);
      (split; [discriminate | reflexivity]).
Qed.

Lemma stopMicrophone_trace s :
  hostCalls (final (stopMicrophone s)) =
    (hostCalls s ++
     map TrackStop (stopCalls getAudioTracks (micStreamRef s) (micTrackRef s)))%list /\
  exists added,
    extends s (final (stopMicrophone s)) added /\
    added <> [] /\
    length (filter isError added) =
      if streamStops getAudioTracks (micStreamRef s) && trackStops (micTrackRef s)
      then 0 else 1.
Proof.
  destruct_state s. run_handler. unfold stopCalls.
  destruct ms as [stream |]; unfold bind; cbn.
  - forEach_trace.
    + destruct mt as [t |]; cbn;
        [unfold stops; destruct (track_stop t); cbn |];
        (split; [rewrite ?map_app, ?app_nil_r, <- ?app_assoc; cbn; rewrite ?app_nil_r; reflexivity |]);
        solve_trace Herr.
    + rewrite app_nil_r. split; [reflexivity |]. solve_trace Herr.
  - destruct mt as [t |]; cbn;
      [unfold stops; destruct (track_stop t); cbn |];
      (split; [rewrite ?app_nil_r; reflexivity |]);
      eexists; (split; [split; cbn; [rewrite <- ?app_assoc; cbn; reflexivity | cbn; lia] |]);
      (split; [discriminate | reflexivity]).
Qed.


Ltac solve_added :=
  eexists; split;
  [ split; cbn; [rewrite <- ?app_assoc; cbn; reflexivity | cbn; lia]
  | split; [discriminate | reflexivity] ].

Lemma step_logs s op :
  op <> ClearLogs ->
  exists added,
    extends s (step s op) added /\
    added <> [] /\
    length (filter isError added) = if fails op s then 1 else 0.
Proof.
  intros Hop. unfold step.
  destruct op as [host | | host | host | |]; cbn [handler fails];
    [ | | | | | congruence].
  - destruct_state s. destruct host as [[videoTracks audioTracks] | e].
    + destruct videoTracks as [| [lbl stopped [[[[b |]] |] |]] rest];
        destruct vr; run_handler; solve_added.
    + run_handler. solve_added.
  - destruct (stopCamera_trace s) as (_ & added & H & Hne & Herr).
    exists added. rewrite Herr. split; [exact H |]. split; [exact Hne |]. now destruct (_ && _).
  - destruct_state s. destruct tr, ts, host; run_handler; solve_added.
  - destruct_state s. unfold micRefused. cbn.
    destruct host as [[videoTracks [| track rest]] | e];
      destruct ca, sr; run_handler; solve_added.
  - destruct (stopMicrophone_trace s) as (_ & added & H & Hne & Herr).
    exists added. rewrite Herr. split; [exact H |]. split; [exact Hne |]. now destruct (_ && _).
Qed.

Lemma forEach_frame (f : Track -> M unit) tracks :
  (forall t s, with_hostCalls [] (final (f t s)) = with_hostCalls [] s) ->
  forall s, with_hostCalls [] (final (forEach tracks f s)) = with_hostCalls [] s.
Proof.
  intros Hf. induction tracks as [| t rest IH]; intros s; [reflexivity |].
  cbn. unfold bind. pose proof (Hf t s) as Hs.
  destruct (f t s) as [[] s1 | e s1]; cbn in *; [| exact Hs].
  now rewrite IH.
Qed.

Lemma stop_frame t s : with_hostCalls [] (final (stop t s)) = with_hostCalls [] s.
Proof.
  destruct s. unfold stop, bind. cbn. destruct (track_stop t); reflexivity.
Qed.

Lemma forEach_returns (f : Track -> M unit) tracks :
  (forall t s, returns (f t s) = stops t) ->
  forall s, returns (forEach tracks f s) = forallb stops tracks.
Proof.
  intros Hf. induction tracks as [| t rest IH]; intros s; [reflexivity |].
  cbn. unfold bind. pose proof (Hf t s) as Hr.
  destruct (f t s) as [[] s1 | e s1]; cbn in *; rewrite <- Hr; cbn; auto.
Qed.

Ltac forEach_silent :=
  match goal with
  | |- context [forEach ?l ?f ?s0] =>
      let Hf := fresh "Hf" in
      let Hr := fresh "Hr" in
      let Hcalls := fresh "Hcalls" in
      let s1 := fresh "s1" in
      pose proof (forEach_frame f l stop_frame s0) as Hf;
      pose proof (forEach_returns f l (fun t s => proj2 (stop_calls t s)) s0) as Hr;
      pose proof (forEach_calls f l stop_calls s0) as Hcalls;
      destruct (forEach l f s0) as [[] s1 | ? s1];
      cbn in Hf, Hr, Hcalls |- *; try rewrite <- Hr; cbn;
      destruct s1; cbn in *;
      injection Hf as -> -> -> -> -> -> -> -> -> -> -> -> -> ->; subst
  end.

Lemma cleanup_effect s :
  let video := streamStops getVideoTracks (streamRef s) && trackStops (trackRef s) in
  let audio := streamStops getAudioTracks (micStreamRef s) && trackStops (micTrackRef s) in
  returns (cleanup s) = video && audio /\
  hostCalls (final (cleanup s)) = (hostCalls s ++ map TrackStop (cleanupCalls s))%list /\
  with_hostCalls [] (final (cleanup s)) =
    with_hostCalls []
      (with_streamRef
         (if streamStops getVideoTracks (streamRef s) then None else streamRef s)
         (with_trackRef (if video then None else trackRef s)
            (with_micStreamRef
               (if video && streamStops getAudioTracks (micStreamRef s)
                then None else micStreamRef s)
               (with_micTrackRef (if video && audio then None else micTrackRef s) s)))).
Proof.
  cbv zeta. destruct_state s. unfold cleanup, cleanupCalls, stopCalls. cbn.
  destruct sr as [stream |]; unfold bind; cbn.
  - forEach_silent.
    + destruct tr as [t |]; cbn; [unfold stops; destruct (track_stop t); cbn |].
      * rewrite ?app_nil_r, ?map_app, <- ?app_assoc. now repeat split.
      * destruct ms as [mstream |]; cbn.
        -- forEach_silent.
           ++ destruct mt as [m |]; cbn; [unfold stops; destruct (track_stop m); cbn |];
                rewrite ?app_nil_r, ?map_app, <- ?app_assoc; cbn; now repeat split.
           ++ rewrite ?app_nil_r, ?map_app, <- ?app_assoc; cbn. now repeat split.
        -- destruct mt as [m |]; cbn; [unfold stops; destruct (track_stop m); cbn |];
             rewrite ?app_nil_r, ?map_app, <- ?app_assoc; cbn; now repeat split.
      * destruct ms as [mstream |]; cbn.
        -- forEach_silent.
           ++ destruct mt as [m |]; cbn; [unfold stops; destruct (track_stop m); cbn |];
                rewrite ?app_nil_r, ?map_app, <- ?app_assoc; cbn; now repeat split.
           ++ rewrite ?app_nil_r, ?map_app, <- ?app_assoc; cbn. now repeat split.
        -- destruct mt as [m |]; cbn; [unfold stops; destruct (track_stop m); cbn |];
             rewrite ?app_nil_r, ?map_app, <- ?app_assoc; cbn; now repeat split.
    + rewrite ?app_nil_r. now repeat split.
  - destruct tr as [t |]; cbn; [unfold stops; destruct (track_stop t); cbn |].
    + rewrite ?app_nil_r. now repeat split.
    + destruct ms as [mstream |]; cbn.
      * forEach_silent.
        -- destruct mt as [m |]; cbn; [unfold stops; destruct (track_stop m); cbn |];
             rewrite ?app_nil_r, ?map_app, <- ?app_assoc; cbn; now repeat split.
        -- rewrite ?app_nil_r, ?map_app, <- ?app_assoc; cbn. now repeat split.
      * destruct mt as [m |]; cbn; [unfold stops; destruct (track_stop m); cbn |];
          rewrite ?app_nil_r, ?map_app, <- ?app_assoc; cbn; now repeat split.
    + destruct ms as [mstream |]; cbn.
      * forEach_silent.
        -- destruct mt as [m |]; cbn; [unfold stops; destruct (track_stop m); cbn |];
             rewrite ?app_nil_r, ?map_app, <- ?app_assoc; cbn; now repeat split.
        -- rewrite ?app_nil_r, ?map_app, <- ?app_assoc; cbn. now repeat split.
      * destruct mt as [m |]; cbn; [unfold stops; destruct (track_stop m); cbn |];
          rewrite ?app_nil_r, ?map_app, <- ?app_assoc; cbn; now repeat split.
Qed.

Lemma paired_step s op : paired s -> paired (step s op).
Proof.
  intros Hs. step_effect s op Hc; split_effect Hc;
    unfold paired in *; cbn in *; subst; congruence.
Qed.






(** * Further properties of the handlers *)

Lemma with_hostCalls_eq a b calls :
  with_hostCalls [] a = with_hostCalls [] b -> hostCalls a = calls ->
  a = with_hostCalls calls b.
Proof. destruct a, b. cbn. intros [= -> -> -> -> -> -> -> -> -> -> -> -> -> ->] ->. reflexivity. Qed.


Lemma fails_spec op s : fails op s = caught op s || rejected op s.
Proof.
  unfold caught. destruct op as [host | | host | host | |]; cbn [fails tryOf rejected].
  - destruct (startCamera_effect host s) as [-> _]. now rewrite orb_false_r.
  - destruct (stopCamera_effect s) as [-> _]. now rewrite orb_false_r.
  - destruct_state s. destruct tr, ts, host; reflexivity.
  - destruct (startMicrophone_effect host s) as [-> _]. unfold micRefused.
    destruct (cameraActive s || isSome (streamRef s)); cbn; [reflexivity |].
    rewrite orb_false_r. now destruct host.
  - destruct (stopMicrophone_effect s) as [-> _]. now rewrite orb_false_r.
  - now destruct s.
Qed.

(** X1. When every track the component holds stops without throwing, the
    cleanup of the unmount effect returns, has called [stop()] on the held
    tracks, and leaves the state as it was except that the four references
    are null: the flags, the errors, the log and the preview are untouched. *)
Theorem cleanup_releases_all_handles s
    (Hvideo : streamStops getVideoTracks (streamRef s) && trackStops (trackRef s) = true)
    (Haudio : streamStops getAudioTracks (micStreamRef s) && trackStops (micTrackRef s) = true) :
  returns (cleanup s) = true /\
  final (cleanup s) =
    with_hostCalls
      (hostCalls s ++
       map TrackStop
         (stopCalls getVideoTracks (streamRef s) (trackRef s) ++
          stopCalls getAudioTracks (micStreamRef s) (micTrackRef s)))%list
      (with_streamRef None
         (with_trackRef None (with_micStreamRef None (with_micTrackRef None s)))).
Proof.
  destruct (cleanup_effect s) as (Hr & Hcalls & Hframe). cbv zeta in *.
  unfold cleanupCalls in Hcalls. rewrite Hvideo in *. rewrite Haudio in *.
  apply andb_true_iff in Hvideo as [Hvs _]. apply andb_true_iff in Haudio as [Has _].
  rewrite Hvs, Has in Hframe. cbn in Hframe.
  split; [exact Hr |]. now apply with_hostCalls_eq.
Qed.

(** X2. The cleanup has no [try] block: when a video track throws from
    [stop()], the exception escapes, the microphone references keep their
    values and no microphone track has been stopped. *)
Theorem cleanup_throw_skips_microphone s
    (Hvideo : streamStops getVideoTracks (streamRef s) && trackStops (trackRef s) = false) :
  returns (cleanup s) = false /\
  micStreamRef (final (cleanup s)) = micStreamRef s /\
  micTrackRef (final (cleanup s)) = micTrackRef s /\
  hostCalls (final (cleanup s)) =
    (hostCalls s ++
     map TrackStop (stopCalls getVideoTracks (streamRef s) (trackRef s)))%list.
Proof.
  destruct (cleanup_effect s) as (Hr & Hcalls & Hframe). cbv zeta in *.
  unfold cleanupCalls in Hcalls. rewrite Hvideo in *.
  split; [exact Hr |]. clear Hr.
  set (s' := final (cleanup s)) in *. clearbody s'.
  destruct (streamStops getVideoTracks (streamRef s)), (trackStops (trackRef s));
    try discriminate Hvideo;
    destruct s', s; cbn in *;
    injection Hframe as -> -> -> -> -> -> -> -> -> -> -> -> -> ->; auto.
Qed.




(** X5. The log only grows under every handler but [clearLogs]: the earlier
    entries stay in place, at least one entry is appended, and the clock was
    read once for each appended entry. *)
Theorem log_grows s op (Hop : op <> ClearLogs) :
  exists added,
    added <> [] /\
    logs (step s op) = (logs s ++ added)%list /\
    clock (step s op) = clock s + length added.
Proof.
  destruct (step_logs s op Hop) as (added & [Hlogs Hclock] & Hne & _).
  now exists added.
Qed.

(** X6. No handler lets an exception escape, and a handler appends exactly
    one entry of type error when its [try] block threw or its guard turned
    the call down, and none otherwise. *)
Theorem error_entry_iff_failure s op :
  returns (handler op s) = true /\
  exists added,
    logs (step s op) =
      ((match op with ClearLogs => [] | _ => logs s end) ++ added)%list /\
    length (filter isError added) =
      if caught op s || rejected op s then 1 else 0.
Proof.
  split; [apply handler_returns |].
  destruct op as [host | | host | host | |];
    try (match goal with
         | |- context [step s ?op] =>
             assert (Hop : op <> ClearLogs) by discriminate;
             destruct (step_logs s op Hop) as (added & [Hlogs _] & _ & Herr);
             exists added; rewrite <- fails_spec; now split
         end).
  exists [entryAt (clock s) "Logs cleared" Info]. now destruct s.
Qed.

(** X7. The 'No logs yet' placeholder of the log panel is shown only before
    the first call: after any non-empty sequence of handler calls from the
    initial state the log holds at least one entry. *)
Theorem no_logs_only_before_first_call ops :
  showsNoLogsYet (run ops initial) = true <-> ops = [].
Proof.
  split; [| now intros ->].
  destruct ops as [| op ops] using rev_ind; [reflexivity |].
  rewrite run_snoc. unfold showsNoLogsYet. intros Hempty. exfalso.
  apply Nat.eqb_eq, length_zero_iff_nil in Hempty.
  destruct op as [host | | host | host | |];
    try (match type of Hempty with
         | logs (step ?s ?op) = [] =>
             assert (Hop : op <> ClearLogs) by discriminate;
             destruct (step_logs s op Hop) as (added & [Hlogs _] & Hne & _);
             rewrite Hlogs in Hempty; now destruct (app_eq_nil _ _ Hempty)
         end).
  revert Hempty. generalize (run ops initial). intros s. now destruct s.
Qed.

(** X8. In every state reached by calling the handlers in any order the
    recording flag equals the active flag of the microphone: there is no
    state in which one is set without the other, so the Stop button of the
    microphone is enabled exactly while the microphone session is active. *)
Theorem recording_iff_active s (Hreach : reachable s) :
  micRecording s = micActive s /\
  disabled StopMicrophone s = negb (micActive s).
Proof.
  assert (Hpaired : paired s).
  { induction Hreach as [| s op _ IH]; [reflexivity | now apply paired_step]. }
  split; [exact Hpaired |]. cbn. now rewrite Hpaired.
Qed.



(** X11. When [startMicrophone] is not refused and the host rejects the
    request, the microphone is neither active nor recording afterwards, its
    error holds the message built from the reason the host reported, the
    references keep their values, and the log has gained the request entry,
    the go-ahead entry and one error entry. *)
Theorem startMicrophone_rejected e s
    (Hinactive : cameraActive s = false) (Hfree : streamRef s = None) :
  let s' := step s (StartMicrophone (Rejected e)) in
  let errorMsg := "Microphone: Permission denied or error - " ++ reason e in
  audioSession s' =
    (false, Some errorMsg, false, micStreamRef s, micTrackRef s) /\
  videoSession s' = videoSession s /\
  logs s' =
    (logs s ++
     [entryAt (clock s) "Microphone: Requesting permission..." Info;
      entryAt (S (clock s))
        "Microphone: Camera is not active - proceeding with permission request"
        Success;
      entryAt (S (S (clock s))) errorMsg Error])%list.
Proof.
  cbv zeta. destruct_state s. subst. unfold step. cbn [handler]. run_handler.
  repeat split. now rewrite <- !app_assoc.
Qed.

(** X12. When [startMicrophone] is not refused and the host grants a stream
    that has no audio track, reading the label of the missing track throws:
    the session ends neither active nor recording, with the error of the
    failed property read, yet it keeps the granted stream in
    [micStreamRef], and the Stop button, disabled while not recording,
    cannot release it. *)
Theorem startMicrophone_without_audio_track stream s
    (Hinactive : cameraActive s = false) (Hfree : streamRef s = None)
    (Hnone : getAudioTracks stream = []) :
  let s' := step s (StartMicrophone (Resolved stream)) in
  audioSession s' =
    (false,
     Some ("Microphone: Permission denied or error - " ++ reason TypeError),
     false, Some stream, None) /\
  disabled StopMicrophone s' = true.
Proof.
  cbv zeta. destruct_state s. destruct stream as [videoTracks audioTracks].
  cbn in Hnone. subst. unfold step. cbn [handler]. run_handler. now split.
Qed.

(** X13. When [startMicrophone] is not refused and the host grants a stream
    with an audio track, the session becomes active and recording at once,
    its error is cleared, it holds the stream and its first audio track, the
    camera session is untouched, and the last log entry names the label of
    that track. *)
Theorem startMicrophone_granted stream track rest s
    (Hinactive : cameraActive s = false) (Hfree : streamRef s = None)
    (Htracks : getAudioTracks stream = track :: rest) :
  let s' := step s (StartMicrophone (Resolved stream)) in
  audioSession s' = (true, None, true, Some stream, Some track) /\
  videoSession s' = videoSession s /\
  hostCalls s' = (hostCalls s ++ [GetUserMedia AudioTrue])%list /\
  exists earlier,
    logs s' =
      (earlier ++
       [entryAt (S (S (S (clock s))))
          ("Microphone: Recording started (" ++ label track ++ ")") Success])%list.
Proof.
  cbv zeta. destruct_state s. destruct stream as [videoTracks audioTracks].
  cbn in Htracks. subst. unfold step. cbn [handler]. run_handler.
  repeat split. eexists. reflexivity.
Qed.

(** X14. A camera request that the host grants always succeeds, whatever
    the state: there is no guard, not even on a recording microphone, whose
    session is left as it was.  Afterwards the session is active with no
    error, holds the stream and its first video track (none, for a stream
    without video tracks), and the preview shows the stream.
    [torchSupported] becomes true when the first track reports a torch
    capability and otherwise keeps its earlier value; [torchEnabled] is not
    touched. *)
Theorem startCamera_granted stream s :
  let s' := step s (StartCamera (Resolved stream)) in
  returns (startCamera_try (Resolved stream) s) = true /\
  videoSession s' =
    (true, None, Some stream, hd_error (getVideoTracks stream),
     torchProbe stream || torchSupported s, torchEnabled s) /\
  videoRef s' = attachedVideo stream (videoRef s) /\
  audioSession s' = audioSession s.
Proof.
  cbv zeta. destruct (startCamera_effect (Resolved stream) s) as [Hr Hc].
  split; [exact Hr |]. unfold step. cbn [handler].
  pose proof (f_equal (fun c => fst (fst c)) Hc) as Hvideo.
  pose proof (f_equal (fun c => snd (fst c)) Hc) as Hpreview.
  pose proof (f_equal snd Hc) as Haudio.
  now repeat split.
Qed.

(** X15. Start then stop is a round trip: after a camera start that the
    host grants, on a stream whose tracks stop without throwing, a stop
    leaves the camera session as new (inactive, no error, no handles, torch
    flags off) and the preview empty, whatever the state before the start,
    and the microphone session as it was.  The same holds for the
    microphone when its start is not refused and the stream has an audio
    track. *)
Theorem start_then_stop_resets s stream :
  (forallb stops (getVideoTracks stream) = true ->
   let s2 := step (step s (StartCamera (Resolved stream))) StopCamera in
   videoSession s2 = (false, None, None, None, false, false) /\
   videoRef s2 = clearedVideo (videoRef s) /\
   audioSession s2 = audioSession s) /\
  (cameraActive s = false -> streamRef s = None ->
   getAudioTracks stream <> [] ->
   forallb stops (getAudioTracks stream) = true ->
   let s2 := step (step s (StartMicrophone (Resolved stream))) StopMicrophone in
   audioSession s2 = (false, None, false, None, None) /\
   videoSession s2 = videoSession s /\
   videoRef s2 = videoRef s).
Proof.
  split.
  - intros Hstops. cbv zeta. unfold step. cbn [handler].
    destruct (startCamera_effect (Resolved stream) s) as [_ Hc1].
    set (s1 := final (startCamera (Resolved stream) s)) in *. clearbody s1.
    destruct (stopCamera_effect s1) as [_ Hc2].
    set (s2 := final (stopCamera s1)) in *. clearbody s2.
    destruct s1. unfold component, videoSession, audioSession in Hc1; cbn in Hc1.
    injection Hc1 as -> -> -> -> -> -> -> -> -> -> -> ->. cbn in Hc2.
    rewrite Hstops, (hd_error_stops _ Hstops) in Hc2.
    destruct s2. unfold component, videoSession, audioSession in *; cbn in *.
    injection Hc2 as -> -> -> -> -> -> -> -> -> -> -> ->.
    repeat split. destruct s as [? ? ? ? [v |]]; reflexivity.
  - intros Hinactive Hfree Htracks Hstops. cbv zeta. unfold step. cbn [handler].
    destruct (startMicrophone_effect (Resolved stream) s) as [_ Hc1].
    unfold micRefused in Hc1. rewrite Hinactive, Hfree in Hc1. cbn in Hc1.
    set (s1 := final (startMicrophone (Resolved stream) s)) in *. clearbody s1.
    destruct (stopMicrophone_effect s1) as [_ Hc2].
    set (s2 := final (stopMicrophone s1)) in *. clearbody s2.
    pose proof (hd_error_stops _ Hstops) as Hfirst.
    destruct (getAudioTracks stream) as [| track rest] eqn:Etracks; [congruence |].
    cbn in Hc1, Hfirst.
    destruct s1. unfold component, videoSession, audioSession in Hc1; cbn in Hc1.
    injection Hc1 as -> -> -> -> -> -> -> -> -> -> -> ->. cbn in Hc2.
    rewrite Etracks, Hstops, Hfirst in Hc2.
    destruct s2. unfold component, videoSession, audioSession in *; cbn in *.
    injection Hc2 as -> -> -> -> -> -> -> -> -> -> -> ->.
    now repeat split.
Qed.


(** X17. A camera start that the host rejects does not release what the
    session holds: after a granted start followed by a rejected one the
    camera is inactive and still holds the stream, and [startMicrophone]
    then refuses with 'Camera must be stopped first' without asking the
    host, although the camera is not active. *)
Theorem rejected_restart_blocks_microphone s stream e host :
  let s2 := step (step s (StartCamera (Resolved stream))) (StartCamera (Rejected e)) in
  cameraActive s2 = false /\
  streamRef s2 = Some stream /\
  micError (step s2 (StartMicrophone host)) = Some "Camera must be stopped first" /\
  hostCalls (step s2 (StartMicrophone host)) = hostCalls s2.
Proof.
  cbv zeta.
  destruct (startCamera_effect (Resolved stream) s) as [_ Hc1].
  change (final (startCamera (Resolved stream) s))
    with (step s (StartCamera (Resolved stream))) in Hc1.
  set (s1 := step s (StartCamera (Resolved stream))) in *. clearbody s1.
  destruct (startCamera_effect (Rejected e) s1) as [_ Hc2].
  change (final (startCamera (Rejected e) s1))
    with (step s1 (StartCamera (Rejected e))) in Hc2.
  set (s2 := step s1 (StartCamera (Rejected e))) in *. clearbody s2.
  assert (Hstream : streamRef s2 = Some stream).
  { destruct s1, s2. unfold component, videoSession in *; cbn in *.
    injection Hc1 as _ _ -> _ _ _ _ _ _ _ _ _. now injection Hc2. }
  assert (Hinactive : cameraActive s2 = false).
  { destruct s2. unfold component, videoSession in *; cbn in *. now injection Hc2. }
  split; [exact Hinactive |]. split; [exact Hstream |].
  unfold step. cbn [handler].
  rewrite (startMicrophone_refusal host s2)
    by (right; rewrite Hstream; discriminate).
  destruct s2. now split.
Qed.

(** X18. After [startMicrophone] has refused on a microphone that is not
    recording, the status line reads 'Permission Denied', although the host
    was never asked for the permission. *)
Theorem micStatus_after_refusal host s
    (Hheld : cameraActive s = true \/ streamRef s <> None)
    (Hidle : micRecording s = false) :
  micStatus (step s (StartMicrophone host)) = StatusPermissionDenied /\
  hostCalls (step s (StartMicrophone host)) = hostCalls s.
Proof.
  unfold step. cbn [handler]. rewrite (startMicrophone_refusal host s Hheld).
  destruct_state s. subst. now split.
Qed.

(** X19. The two sessions do not write each other's state: the camera
    handlers leave the microphone session as it is, the microphone handlers
    leave the camera session and the preview as they are, and [clearLogs]
    changes nothing but the log. *)
Theorem sessions_are_independent s op :
  (cameraOp op = true -> audioSession (step s op) = audioSession s) /\
  (microphoneOp op = true ->
   videoSession (step s op) = videoSession s /\ videoRef (step s op) = videoRef s) /\
  (op = ClearLogs ->
   component (step s op) = component s /\ hostCalls (step s op) = hostCalls s).
Proof.
  split; [| split]; intros Hop.
  - step_effect s op Hc; try discriminate Hop; split_effect Hc; reflexivity.
  - step_effect s op Hc; try discriminate Hop; split_effect Hc; now split.
  - subst op. split; [apply clearLogs_effect | now destruct s].
Qed.

End Handlers.

(** * Concrete runs

    The runs below use the sample host values and the clock [noon]. *)

(** ** Runs on which statements of the specification fail *)



(** C4, as stated, fails: a start that succeeds followed by a stop whose
    release throws leaves the camera active, although a stop call occurred
    after the most recent start. *)
Lemma active_after_stop_that_throws :
  let calls := [Start (Resolved faultyStream); Stop] in
  let run := history noon (videoCall) (videoCompletes noon) calls initial [] in
  fst run = [(Stop, false); (Start (Resolved faultyStream), true)] /\
  cameraActive (snd run) = true /\
  ~ startedAndNotStopped (fst run).
Proof.
  cbv zeta. repeat split.
  intros (host & since & before & E & _ & Hstops).
  destruct since as [| call since]; [discriminate E |].
  injection E as <- _. inversion Hstops as [| ? ? Hcall _]. now apply Hcall.
Qed.


(** ** The theorems at concrete inputs *)

Lemma startMicrophone_refuses_witness :
  (cameraActive (torchActive noon) = true \/ streamRef (torchActive noon) <> None) /\
  micError (final (startMicrophone noon (Resolved micStream) (torchActive noon))) =
    Some "Camera must be stopped first" /\
  hostCalls (final (startMicrophone noon (Resolved micStream) (torchActive noon))) =
    hostCalls (torchActive noon).
Proof.
  split; [left; reflexivity |].
  pose proof (startMicrophone_refuses_while_camera_held noon (Resolved micStream)
                (torchActive noon) (or_introl eq_refl)) as (_ & Herror & _ & _ & Hcalls).
  split; [exact Herror | exact Hcalls].
Defined.

Lemma startMicrophone_refusal_frame_witness :
  (cameraActive (torchActive noon) = true \/ streamRef (torchActive noon) <> None) /\
  micActive (final (startMicrophone noon (Resolved micStream) (torchActive noon))) =
    micActive (torchActive noon) /\
  micStreamRef (final (startMicrophone noon (Resolved micStream) (torchActive noon))) =
    micStreamRef (torchActive noon).
Proof.
  split; [left; reflexivity |].
  pose proof (startMicrophone_refusal_frame noon (Resolved micStream)
                (torchActive noon) (or_introl eq_refl)) as (Hactive & _ & Hstream & _).
  split; [exact Hactive | exact Hstream].
Defined.

Lemma toggleTorch_unsupported_witness :
  torchSupported initial = false /\
  hostCalls (final (toggleTorch noon (Resolved tt) initial)) = hostCalls initial /\
  torchSupported (plainActive noon) = false /\
  torchEnabled (final (toggleTorch noon (Resolved tt) (plainActive noon))) = false.
Proof.
  pose proof (toggleTorch_unsupported noon (Resolved tt) initial eq_refl)
    as (_ & _ & Hcalls & Hscenario).
  pose proof (Hscenario plainStream plainTrack [] eq_refl eq_refl eq_refl)
    as (_ & Hsupported & _ & _ & Henabled).
  split; [reflexivity |]. split; [exact Hcalls |].
  split; [exact Hsupported | exact Henabled].
Defined.





Lemma active_iff_started_witness :
  cameraActive
    (snd (history noon videoCall (videoCompletes noon)
            [Start (Resolved faultyStream); Stop] initial [])) = true /\
  startedAndNoStopSucceeded
    (fst (history noon videoCall (videoCompletes noon)
            [Start (Resolved faultyStream); Stop] initial [])) /\
  Forall callReleasable
    [Start (Resolved torchStream); Stop; Start (Rejected denied)] /\
  cameraActive
    (snd (history noon videoCall (videoCompletes noon)
            [Start (Resolved torchStream); Stop; Start (Rejected denied)]
            initial [])) = false /\
  ~ startedAndNotStopped
      (fst (history noon videoCall (videoCompletes noon)
              [Start (Resolved torchStream); Stop; Start (Rejected denied)]
              initial [])).
Proof.
  assert (Hcalls : Forall callReleasable
            [Start (Resolved torchStream); Stop; Start (Rejected denied)])
    by (repeat constructor).
  split; [reflexivity |].
  split.
  { apply (proj1 (active_iff_started_and_no_stop_succeeded noon
                    [Start (Resolved faultyStream); Stop])).
    reflexivity. }
  split; [exact Hcalls |]. split; [reflexivity |].
  intros Hstarted.
  apply (proj1 (proj2 (proj2 (active_iff_started_and_no_stop_succeeded noon _))
                  Hcalls)) in Hstarted.
  discriminate Hstarted.
Defined.

(** ** The further properties at concrete inputs *)

Lemma cleanup_releases_all_handles_witness :
  streamStops getVideoTracks (streamRef (torchActive noon)) &&
    trackStops (trackRef (torchActive noon)) = true /\
  streamStops getAudioTracks (micStreamRef (torchActive noon)) &&
    trackStops (micTrackRef (torchActive noon)) = true /\
  returns (cleanup (torchActive noon)) = true /\
  streamRef (final (cleanup (torchActive noon))) = None /\
  trackRef (final (cleanup (torchActive noon))) = None /\
  cameraActive (final (cleanup (torchActive noon))) = true.
Proof.
  destruct (cleanup_releases_all_handles (torchActive noon) eq_refl eq_refl)
    as [Hreturns Hfinal].
  split; [reflexivity |]. split; [reflexivity |]. split; [exact Hreturns |].
  rewrite Hfinal. repeat split.
Defined.

Lemma cleanup_throw_skips_microphone_witness :
  streamStops getVideoTracks (streamRef (faultyActive noon)) &&
    trackStops (trackRef (faultyActive noon)) = false /\
  returns (cleanup (faultyActive noon)) = false /\
  hostCalls (final (cleanup (faultyActive noon))) =
    (hostCalls (faultyActive noon) ++ [TrackStop faultyTrack])%list.
Proof.
  destruct (cleanup_throw_skips_microphone (faultyActive noon) eq_refl)
    as (Hthrows & _ & _ & Hcalls).
  split; [reflexivity |]. split; [exact Hthrows | exact Hcalls].
Defined.


Lemma log_grows_witness :
  StopCamera <> ClearLogs /\
  exists added,
    added <> [] /\
    logs (step noon (torchActive noon) StopCamera) =
      (logs (torchActive noon) ++ added)%list /\
    clock (step noon (torchActive noon) StopCamera) =
      clock (torchActive noon) + length added.
Proof.
  assert (Hop : StopCamera <> ClearLogs) by discriminate.
  split; [exact Hop |].
  exact (log_grows noon (torchActive noon) StopCamera Hop).
Defined.

Lemma no_logs_only_before_first_call_witness :
  showsNoLogsYet (run noon [] initial) = true /\
  (showsNoLogsYet (run noon [ClearLogs] initial) = true -> [ClearLogs] = @nil Op).
Proof.
  split.
  - exact (proj2 (no_logs_only_before_first_call noon []) eq_refl).
  - exact (proj1 (no_logs_only_before_first_call noon [ClearLogs])).
Defined.

Lemma recording_iff_active_witness :
  reachable noon (micOn noon) /\
  micRecording (micOn noon) = micActive (micOn noon) /\
  disabled StopMicrophone (micOn noon) = false.
Proof.
  assert (Hreach : reachable noon (micOn noon))
    by (apply reachable_step, reachable_initial).
  destruct (recording_iff_active noon (micOn noon) Hreach) as [Hpaired Hbutton].
  split; [exact Hreach |]. split; [exact Hpaired |].
  rewrite Hbutton. reflexivity.
Defined.



Lemma startMicrophone_rejected_witness :
  cameraActive initial = false /\
  streamRef initial = None /\
  audioSession (step noon initial (StartMicrophone (Rejected denied))) =
    (false, Some "Microphone: Permission denied or error - Permission denied",
     false, None, None).
Proof.
  split; [reflexivity |]. split; [reflexivity |].
  exact (proj1 (startMicrophone_rejected noon denied initial eq_refl eq_refl)).
Defined.

Lemma startMicrophone_without_audio_track_witness :
  cameraActive initial = false /\
  streamRef initial = None /\
  getAudioTracks silentStream = [] /\
  micStreamRef (step noon initial (StartMicrophone (Resolved silentStream))) =
    Some silentStream /\
  micActive (step noon initial (StartMicrophone (Resolved silentStream))) = false /\
  disabled StopMicrophone
    (step noon initial (StartMicrophone (Resolved silentStream))) = true.
Proof.
  destruct (startMicrophone_without_audio_track noon silentStream initial
              eq_refl eq_refl eq_refl) as [Hsession Hbutton].
  split; [reflexivity |]. split; [reflexivity |]. split; [reflexivity |].
  split; [exact (f_equal (fun c => snd (fst c)) Hsession) |].
  split; [exact (f_equal (fun c => fst (fst (fst (fst c)))) Hsession) | exact Hbutton].
Defined.

Lemma startMicrophone_granted_witness :
  cameraActive initial = false /\
  streamRef initial = None /\
  getAudioTracks micStream = [micTrack] /\
  audioSession (step noon initial (StartMicrophone (Resolved micStream))) =
    (true, None, true, Some micStream, Some micTrack).
Proof.
  split; [reflexivity |]. split; [reflexivity |]. split; [reflexivity |].
  exact (proj1 (startMicrophone_granted noon micStream micTrack [] initial
                  eq_refl eq_refl eq_refl)).
Defined.

Lemma start_then_stop_resets_witness :
  forallb stops (getVideoTracks torchStream) = true /\
  videoSession (step noon (torchActive noon) StopCamera) =
    (false, None, None, None, false, false) /\
  getAudioTracks micStream <> [] /\
  forallb stops (getAudioTracks micStream) = true /\
  audioSession (step noon (micOn noon) StopMicrophone) =
    (false, None, false, None, None).
Proof.
  assert (Htracks : getAudioTracks micStream <> []) by discriminate.
  split; [reflexivity |].
  split.
  { exact (proj1 (proj1 (start_then_stop_resets noon initial torchStream) eq_refl)). }
  split; [exact Htracks |]. split; [reflexivity |].
  exact (proj1 (proj2 (start_then_stop_resets noon initial micStream)
                  eq_refl eq_refl Htracks eq_refl)).
Defined.


Lemma micStatus_after_refusal_witness :
  (cameraActive (torchActive noon) = true \/ streamRef (torchActive noon) <> None) /\
  micRecording (torchActive noon) = false /\
  micStatus (step noon (torchActive noon) (StartMicrophone (Resolved micStream))) =
    StatusPermissionDenied.
Proof.
  split; [left; reflexivity |]. split; [reflexivity |].
  exact (proj1 (micStatus_after_refusal noon (Resolved micStream) (torchActive noon)
                  (or_introl eq_refl) eq_refl)).
Defined.

Lemma sessions_are_independent_witness :
  cameraOp StopCamera = true /\
  audioSession (step noon (micOn noon) StopCamera) = audioSession (micOn noon) /\
  microphoneOp StopMicrophone = true /\
  videoSession (step noon (torchActive noon) StopMicrophone) =
    videoSession (torchActive noon) /\
  hostCalls (step noon (torchActive noon) ClearLogs) = hostCalls (torchActive noon).
Proof.
  split; [reflexivity |].
  split.
  { exact (proj1 (sessions_are_independent noon (micOn noon) StopCamera) eq_refl). }
  split; [reflexivity |].
  split.
  { exact (proj1 (proj1 (proj2 (sessions_are_independent noon (torchActive noon)
                                  StopMicrophone)) eq_refl)). }
  exact (proj2 (proj2 (proj2 (sessions_are_independent noon (torchActive noon)
                                ClearLogs)) eq_refl)).
Defined.
